(** * examples/sample.py, embedded in Rocq

    The script is a flat sequence of statements over a handful of Python
    builtins.  [Module Py] gives the builtins the script calls (string
    conversion of integers, [int] on a string, [repr], the [.2f] format of a
    float, [print], [try]/[except], [range], generator expressions and
    insertion-ordered dictionaries); [Module Sample] is the script itself,
    definition by definition; the lemmas and theorems follow.

    Python [int] is [Z], Python [float] is the kernel's binary64 [float],
    Python [str] is [string] (a sequence of bytes; the script's own text is
    ASCII).  Integers are unbounded; turning one to text, or text to one,
    raises [ValueError] beyond the interpreter's limit of 4300 digits.
    Writing to the console always succeeds. *)

From Stdlib Require Import ZArith String Ascii List Bool Lia.
From Stdlib Require Import Floats DecimalString DecimalPos DecimalZ.
From Equations Require Import Equations.
Import ListNotations.

(* The decimal literals 3.14159 and 1e-200 are read as the nearest binary64
   value, which is also how Python reads them. *)
Set Warnings "-inexact-float".

Open Scope string_scope.
Open Scope Z_scope.

Module Py.

(** ** Text *)

(** The decimal text of an integer: its digits, after a minus sign for a
    negative number.  This is what [str(n)] returns when it returns (see
    [str_of_int]). *)
Definition str_int (n : Z) : string := NilZero.string_of_int (Z.to_int n).

(** The digits of an unsigned decimal numeral, as characters. *)
Definition digit_chars (d : Decimal.uint) : list ascii :=
  list_ascii_of_string (NilEmpty.string_of_uint d).

(** [sep.join(parts)]. *)
Fixpoint join (sep : string) (parts : list string) : string :=
  match parts with
  | [] => EmptyString
  | [p] => p
  | p :: rest => p ++ sep ++ join sep rest
  end.

(** [repr] of a list of integers, which is also its [str]:
    [[2, 4, 6, 8, 10]]. *)
Definition repr_list_int (l : list Z) : string :=
  "[" ++ join ", " (map str_int l) ++ "]".

Definition code (c : ascii) : Z := Z.of_nat (nat_of_ascii c).

(** The white space [int] skips around an ASCII literal: tab, line feed,
    vertical tab, form feed, carriage return and space. *)
Definition is_space (c : ascii) : bool :=
  ((9 <=? code c) && (code c <=? 13)) || (code c =? 32).

Fixpoint lstrip (l : list ascii) : list ascii :=
  match l with
  | c :: rest => if is_space c then lstrip rest else l
  | [] => []
  end.

Definition strip (l : list ascii) : list ascii :=
  rev (lstrip (rev (lstrip l))).

Definition digit_of (c : ascii) : option Z :=
  if (48 <=? code c) && (code c <=? 57) then Some (code c - 48) else None.

(** The digits of an integer literal, most significant first; one underscore
    may stand between two digits.  [after_digit] tells whether the character
    just read was a digit. *)
Fixpoint digits_value (acc : Z) (after_digit : bool) (l : list ascii) : option Z :=
  match l with
  | [] => if after_digit then Some acc else None
  | c :: rest =>
      match digit_of c with
      | Some d => digits_value (10 * acc + d) true rest
      | None =>
          if Ascii.eqb c "_" && after_digit then digits_value acc false rest
          else None
      end
  end.

(** The value [int(s)] reads in base 10, when [s] is an integer literal:
    surrounding white space, an optional sign, digits.  (ASCII digits only.) *)
Definition parse_int (s : string) : option Z :=
  match strip (list_ascii_of_string s) with
  | "-"%char :: l => option_map Z.opp (digits_value 0 false l)
  | "+"%char :: l => digits_value 0 false l
  | l => digits_value 0 false l
  end.

Definition hex_digit (n : Z) : ascii :=
  ascii_of_nat (Z.to_nat (if n <? 10 then 48 + n else 87 + n)).

Definition squote : ascii := "'"%char.
Definition dquote : ascii := "034"%char.
Definition backslash : ascii := "\"%char.

Definition mem_ascii (c : ascii) (l : list ascii) : bool :=
  existsb (Ascii.eqb c) l.

(** One character of [repr(s)], [q] being the quote chosen for the string. *)
Definition repr_char (q c : ascii) : list ascii :=
  if Ascii.eqb c q || Ascii.eqb c backslash then [backslash; c]
  else if code c =? 9 then [backslash; "t"%char]
  else if code c =? 10 then [backslash; "n"%char]
  else if code c =? 13 then [backslash; "r"%char]
  else if (code c <? 32) || (code c =? 127) then
    [backslash; "x"%char; hex_digit (code c / 16); hex_digit (code c mod 16)]
  else [c].

(** [repr(s)] for a [str]: single quotes, unless the text holds a single
    quote and no double quote.  Control characters are escaped; bytes above
    127 are kept as they are. *)
Definition repr_str (s : string) : string :=
  let l := list_ascii_of_string s in
  let q := if mem_ascii squote l && negb (mem_ascii dquote l) then dquote else squote in
  string_of_list_ascii (q :: flat_map (repr_char q) l ++ [q]).

(** ** Floats *)

Definition sign_text (s : bool) : string := if s then "-" else EmptyString.

(** [m * 2^e] scaled by [10^prec] and rounded to the nearest integer, ties to
    even: the digits of a fixed-point rendering. *)
Definition scaled_round (prec : nat) (m : positive) (e : Z) : Z :=
  let n := Z.pos m * 10 ^ Z.of_nat prec in
  if 0 <=? e then n * 2 ^ e
  else
    let d := 2 ^ (- e) in
    let q := n / d in
    let r := n mod d in
    match 2 * r ?= d with
    | Lt => q
    | Gt => q + 1
    | Eq => if Z.even q then q else q + 1
    end.

Fixpoint zeros (n : nat) : string :=
  match n with
  | O => EmptyString
  | S k => String "0" (zeros k)
  end.

Definition zero_pad (width : nat) (s : string) : string :=
  zeros (width - String.length s) ++ s.

(** [format(x, '.<prec>f')] for [prec >= 1]: the exact value of [x] rounded to
    [prec] decimals. *)
Definition format_fixed (prec : nat) (x : float) : string :=
  match Prim2SF x with
  | S754_nan => "nan"
  | S754_infinity s => sign_text s ++ "inf"
  | S754_zero s => sign_text s ++ "0." ++ zero_pad prec EmptyString
  | S754_finite s m e =>
      let n := scaled_round prec m e in
      let p := 10 ^ Z.of_nat prec in
      sign_text s ++ str_int (n / p) ++ "." ++ zero_pad prec (str_int (n mod p))
  end.

(** [a * 2^ea] compared with [c * 10^k], exactly. *)
Definition compare_bin_dec (a ea c k : Z) : comparison :=
  (a * 2 ^ Z.max ea 0 * 10 ^ Z.max (- k) 0) ?= (c * 10 ^ Z.max k 0 * 2 ^ Z.max (- ea) 0).

(** The integer part of [m * 2^e / 10^k]. *)
Definition floor_bin_dec (m e k : Z) : Z :=
  (m * 2 ^ Z.max e 0 * 10 ^ Z.max (- k) 0) / (10 ^ Z.max k 0 * 2 ^ Z.max (- e) 0).

(** The least [p], from [p0] on, with [m * 2^e < 10^p]. *)
Fixpoint decimal_point (fuel : nat) (m e p : Z) : Z :=
  match fuel with
  | O => p
  | S f =>
      match compare_bin_dec m e 1 p with
      | Lt => p
      | _ => decimal_point f m e (p + 1)
      end
  end.

(** Whether the decimal [c * 10^k] reads back as the float [m * 2^e]: it
    lies between the midpoints to the neighbouring floats, the midpoints
    themselves counting when [m] is even. *)
Definition reads_back (m e c k : Z) : bool :=
  let below := if (m =? 2 ^ 52) && (-1074 <? e) then 1 else 2 in
  let lo := compare_bin_dec (4 * m - below) (e - 2) c k in
  let hi := compare_bin_dec (4 * m + 2) (e - 2) c k in
  match lo with
  | Lt => true
  | Eq => Z.even m
  | Gt => false
  end &&
  match hi with
  | Gt => true
  | Eq => Z.even m
  | Lt => false
  end.

(** The shortest decimal [c * 10^k] that reads back as [m * 2^e], the
    nearest one when several are as short; [n] is the number of digits
    tried, [p] the position of the decimal point. *)
Fixpoint shortest (fuel : nat) (m e p n : Z) : Z * Z :=
  let k := p - n in
  let c := floor_bin_dec m e k in
  let nearest :=
    match compare_bin_dec (2 * m) e (2 * c + 1) k with
    | Lt => c
    | Gt => c + 1
    | Eq => if Z.even c then c else c + 1
    end in
  match fuel with
  | O => (nearest, k)
  | S f =>
      match reads_back m e c k, reads_back m e (c + 1) k with
      | true, true => (nearest, k)
      | true, false => (c, k)
      | false, true => (c + 1, k)
      | false, false => shortest f m e p (n + 1)
      end
  end.

Fixpoint drop_zeros (fuel : nat) (c k : Z) : Z * Z :=
  match fuel with
  | O => (c, k)
  | S f => if (c mod 10 =? 0) && (0 <? c) then drop_zeros f (c / 10) (k + 1) else (c, k)
  end.

(** [repr(x)] for a float: the shortest decimal that reads back as [x], in
    fixed notation when its decimal point falls after at most 16 digits and
    before at most 3 zeros, in exponent notation otherwise. *)
Definition repr_float (x : float) : string :=
  match Prim2SF x with
  | S754_nan => "nan"
  | S754_infinity s => sign_text s ++ "inf"
  | S754_zero s => sign_text s ++ "0.0"
  | S754_finite s m e =>
      let m := Z.pos m in
      let p0 := (Z.log2 m + e) * 30103 / 100000 - 1 in
      let p := decimal_point 5 m e p0 in
      let '(c, k) := shortest 16 m e p 1 in
      let '(c, k) := drop_zeros 17 c k in
      let ds := str_int c in
      let len := Z.of_nat (String.length ds) in
      let point := len + k in
      sign_text s ++
      if (-4 <? point) && (point <=? 16) then
        if point <=? 0 then "0." ++ zeros (Z.to_nat (- point)) ++ ds
        else if len <=? point then ds ++ zeros (Z.to_nat (point - len)) ++ ".0"
        else substring 0 (Z.to_nat point) ds ++ "."
             ++ substring (Z.to_nat point) (Z.to_nat (len - point)) ds
      else
        let ex := point - 1 in
        substring 0 1 ds
        ++ (if 1 <? len then "." ++ substring 1 (Z.to_nat (len - 1)) ds else EmptyString)
        ++ "e" ++ (if ex <? 0 then "-" else "+")
        ++ (if Z.abs ex <? 10 then "0" else EmptyString) ++ str_int (Z.abs ex)
  end.

(** ** Exceptions, console output and control flow *)

(** The exception classes the script names or can raise, with the two roots
    of the hierarchy. *)
Inductive exc_class : Type :=
| BaseException
| KeyboardInterrupt
| Exception
| ValueError.

(** [issubclass(c, d)]. *)
Definition issubclass (c d : exc_class) : bool :=
  match d, c with
  | BaseException, _ => true
  | KeyboardInterrupt, KeyboardInterrupt => true
  | Exception, (Exception | ValueError) => true
  | ValueError, ValueError => true
  | _, _ => false
  end.

(** An exception instance: its class and its message, [str(e)]. *)
Record exception : Type := { exc_type : exc_class; str_exc : string }.

Inductive outcome (A : Type) : Type :=
| Returned (a : A)
| Raised (e : exception).
Arguments Returned {A} a.
Arguments Raised {A} e.

(** The console is the list of the lines written so far, oldest first. *)
Definition console : Type := list string.

(** A statement or a call: it runs on a console and either returns a value or
    raises, leaving the console as it has become. *)
Definition M (A : Type) : Type := console -> outcome A * console.

Definition ret {A} (a : A) : M A := fun out => (Returned a, out).

Definition bind {A B} (m : M A) (k : A -> M B) : M B :=
  fun out =>
    match m out with
    | (Returned a, out') => k a out'
    | (Raised e, out') => (Raised e, out')
    end.

Definition raise {A} (e : exception) : M A := fun out => (Raised e, out).

Declare Scope py_scope.
Delimit Scope py_scope with py.
Notation "x <- m ;; k" := (bind m (fun x => k))
  (at level 61, m at next level, right associativity) : py_scope.
Notation "m ;; k" := (bind m (fun _ => k))
  (at level 61, right associativity) : py_scope.

(** The console after one more line. *)
Definition write_line (out : console) (line : string) : console :=
  (out ++ [line])%list.

(** [print(arg1, ..., argn)], each argument already turned to text with
    [str]: one line, the texts separated by single spaces. *)
Definition print (args : list string) : M unit :=
  fun out => (Returned tt, write_line out (join " " args)).

(** [try: body  except cls as e: handler e]. *)
Definition try_except {A} (body : M A) (cls : exc_class) (handler : exception -> M A) : M A :=
  fun out =>
    match body out with
    | (Raised e, out') =>
        if issubclass (exc_type e) cls then handler e out' else (Raised e, out')
    | r => r
    end.

(** [emits m r lines]: from any console, [m] ends with the outcome [r] after
    writing exactly [lines]. *)
Definition emits {A} (m : M A) (r : outcome A) (lines : list string) : Prop :=
  forall out : console, m out = (r, (out ++ lines)%list).

(** The interpreter's limit on the digits of an integer turned to text or
    read from text, [sys.get_int_max_str_digits()], at its default. *)
Definition int_max_str_digits : Z := 4300.

(** The number of decimal digits of an integer. *)
Definition int_digits (n : Z) : Z :=
  Z.of_nat (String.length (str_int (Z.abs n))).

Definition fits_str_digits (n : Z) : bool := int_digits n <=? int_max_str_digits.

(** The error of turning to text an integer of more digits than the limit. *)
Definition str_digits_error : exception :=
  {| exc_type := ValueError;
     str_exc := "Exceeds the limit (" ++ str_int int_max_str_digits
                ++ " digits) for integer string conversion; "
                ++ "use sys.set_int_max_str_digits() to increase the limit" |}.

(** [str(n)] for an [int], which is also how an f-string renders [{n}]:
    the decimal text, or a [ValueError] for a number of more digits than the
    limit. *)
Definition str_of_int (n : Z) : M string :=
  if fits_str_digits n then ret (str_int n) else raise str_digits_error.

(** The digits at the head of [l], an underscore let through between two
    digits: how many digits there are; [None] when there is none, or an
    underscore is out of place. *)
Fixpoint digit_run (count : Z) (after_digit : bool) (l : list ascii) : option Z :=
  match l with
  | [] => if after_digit then Some count else None
  | c :: rest =>
      match digit_of c with
      | Some _ => digit_run (count + 1) true rest
      | None =>
          if Ascii.eqb c "_" then
            if after_digit then digit_run count false rest else None
          else if after_digit then Some count else None
      end
  end.

(** [int(s)] for a [str]: the value of the literal; a [ValueError] when the
    digits are more than the limit, or when [s] is no literal, with the
    first 200 characters of [repr(s)] in the message. *)
Definition int_of_str (s : string) : M Z :=
  let invalid : M Z :=
    raise {| exc_type := ValueError;
             str_exc := "invalid literal for int() with base 10: "
                        ++ substring 0 200 (repr_str s) |} in
  let digits :=
    match strip (list_ascii_of_string s) with
    | "-"%char :: l | "+"%char :: l => l
    | l => l
    end in
  match digit_run 0 false digits with
  | None => invalid
  | Some k =>
      if int_max_str_digits <? k then
        raise {| exc_type := ValueError;
                 str_exc := "Exceeds the limit (" ++ str_int int_max_str_digits
                            ++ " digits) for integer string conversion: value has "
                            ++ str_int k ++ " digits; "
                            ++ "use sys.set_int_max_str_digits() to increase the limit" |}
      else
        match parse_int s with
        | Some n => ret n
        | None => invalid
        end
  end.

(** The exit status of the interpreter for a program started on an empty
    console: 0 when the program runs to its end, 1 when an exception reaches
    the top level. *)
Definition run_program (body : M unit) : Z * console :=
  match body [] with
  | (Returned _, out) => (0, out)
  | (Raised _, out) => (1, out)
  end.

(** ** Sequences *)

(** [sum(l)]. *)
Definition sum (l : list Z) : Z := fold_left Z.add l 0.

(** The iterator of [range(stop)]: the next value to give and the bound. *)
Record range_iterator : Type := { range_pos : Z; range_stop : Z }.

Definition range (stop : Z) : range_iterator :=
  {| range_pos := 0; range_stop := stop |}.

(** [next(it)]; [None] stands for [StopIteration]. *)
Definition range_next (it : range_iterator) : option (Z * range_iterator) :=
  if range_pos it <? range_stop it
  then Some (range_pos it, {| range_pos := range_pos it + 1; range_stop := range_stop it |})
  else None.

(** A generator expression [(body x for x in source)]: nothing is computed
    until [next] asks for an element. *)
Record generator (A : Type) : Type :=
  { gen_body : Z -> A; gen_source : range_iterator }.
Arguments gen_body {A} g.
Arguments gen_source {A} g.

Definition gen_next {A} (g : generator A) : option (A * generator A) :=
  match range_next (gen_source g) with
  | Some (x, it) => Some (gen_body g x, {| gen_body := gen_body g; gen_source := it |})
  | None => None
  end.

(** The values from [pos] on, [n] of them. *)
Fixpoint count_from (pos : Z) (n : nat) : list Z :=
  match n with
  | O => []
  | S k => pos :: count_from (pos + 1) k
  end.

(** The values an iterator over a range has yet to give. *)
Definition range_values (it : range_iterator) : list Z :=
  count_from (range_pos it) (Z.to_nat (range_stop it - range_pos it)).

(** How many elements a generator still has to give. *)
Definition gen_remaining {A} (g : generator A) : nat :=
  Z.to_nat (range_stop (gen_source g) - range_pos (gen_source g)).

Definition inspect {A} (a : A) : {b : A | a = b} := exist _ a eq_refl.

(** Consuming a generator to its end, as [list(g)] or a [for] loop does:
    the elements in the order given, and the exhausted generator. *)
Equations? drain {A} (g : generator A) : list A * generator A
  by wf (gen_remaining g) lt :=
  drain g with inspect (gen_next g) := {
    | exist _ (Some (x, g')) _ => (x :: fst (drain g'), snd (drain g'));
    | exist _ None _ => ([], g) }.
Proof.
  all: unfold gen_next, range_next in *;
    destruct (range_pos (gen_source g) <? range_stop (gen_source g)) eqn:Hlt;
    try discriminate;
    match goal with H : Some _ = Some _ |- _ => inversion H; subst; clear H end;
    apply Z.ltb_lt in Hlt; unfold gen_remaining; simpl; lia.
Qed.

(** ** Dictionaries *)

(** Equality of keys, as a dictionary uses it. *)
Class Key (K : Type) : Type := key_eqb : K -> K -> bool.
#[global] Instance Key_str : Key string := String.eqb.
#[global] Instance Key_int : Key Z := Z.eqb.

(** A dictionary keeps its items in insertion order. *)
Definition dict (K V : Type) : Type := list (K * V).

Section Dict.
Context {K V : Type} `{Key K}.

(** [d[k] = v]: a new key goes to the end, a key already there keeps its
    place and takes the new value. *)
Fixpoint dict_set (d : dict K V) (k : K) (v : V) : dict K V :=
  match d with
  | [] => [(k, v)]
  | (k', v') :: rest =>
      if key_eqb k' k then (k', v) :: rest else (k', v') :: dict_set rest k v
  end.

Fixpoint dict_lookup (d : dict K V) (k : K) : option V :=
  match d with
  | [] => None
  | (k', v') :: rest => if key_eqb k' k then Some v' else dict_lookup rest k
  end.

(** [d.get(k, default)]. *)
Definition dict_get (d : dict K V) (k : K) (default : V) : V :=
  match dict_lookup d k with
  | Some v => v
  | None => default
  end.

(** [d.items()]. *)
Definition items (d : dict K V) : list (K * V) := d.

(** [{key x: val x for x in l}], and with [l] the written pairs the
    display [{k1: v1, ..., kn: vn}]. *)
Definition dict_of {A} (key : A -> K) (val : A -> V) (l : list A) : dict K V :=
  fold_left (fun d x => dict_set d (key x) (val x)) l [].

Definition dict_display (l : list (K * V)) : dict K V := dict_of fst snd l.

Definition keys (d : dict K V) : list K := map fst d.
Definition values (d : dict K V) : list V := map snd d.
End Dict.

(** A key type whose equality test decides equality, as [str] and [int]
    have it. *)
Class KeyLaws (K : Type) `{Key K} : Prop :=
  key_eqb_eq : forall a b : K, key_eqb a b = true <-> a = b.

End Py.

(** * The script *)

Module Sample.
Import Py.
Open Scope py_scope.

(** ** [class Person] (a dataclass) *)

Record Person : Type := { name : string; age : Z }.

(** The [__eq__] a dataclass generates: the fields compared in order. *)
Definition Person_eq (a b : Person) : bool :=
  String.eqb (name a) (name b) && (age a =? age b).

(** The f-string renders [self.name], a text, as it is, and [self.age] with
    [str]. *)
Definition greet (self : Person) : M string :=
  age_text <- str_of_int (age self) ;;
  ret ("Hello, my name is " ++ name self ++ " and I am " ++ age_text
       ++ " years old.").

(** A class method: [cls] is the class it is called on, here its
    constructor. *)
Definition create_person (cls : string -> Z -> Person) (name : string) (age : Z) : Person :=
  cls name age.

(** ** [calculate_area] *)

Definition calculate_area (radius : float) : float :=
  let PI := 3.14159%float in
  (PI * radius * radius)%float.

(** ** [fetch_user_data] *)

(** The values of the dictionary [fetch_user_data] builds. *)
Inductive value : Type :=
| Int (n : Z)
| Str (s : string).

(** The [try] block of [fetch_user_data]. *)
Definition fetch_user_data_try (user_id : Z) : M (option (dict string value)) :=
  id_text <- str_of_int user_id ;;
  print ["Fetching user data for ID: " ++ id_text] ;;
  email_id <- str_of_int user_id ;;
  let user_data :=
    dict_display
      [("id", Int user_id);
       ("name", Str "John Doe");
       ("email", Str ("user" ++ email_id ++ "@example.com"))] in
  ret (Some user_data).

(** Its [except Exception as e] block. *)
Definition fetch_user_data_except (e : exception) : M (option (dict string value)) :=
  print ["Error fetching user data: " ++ str_exc e] ;;
  ret None.

(** The body of the coroutine [fetch_user_data(user_id)], as it runs once
    awaited; it holds no [await], so it runs to its [return] in one go. *)
Definition fetch_user_data (user_id : Z) : M (option (dict string value)) :=
  try_except (fetch_user_data_try user_id) Exception fetch_user_data_except.

(** ** Module level *)

Definition numbers : list Z := [1; 2; 3; 4; 5].
Definition doubled : list Z := map (fun num => num * 2) numbers.
Definition even : list Z := filter (fun num => num mod 2 =? 0) numbers.
Definition squares_generator : generator Z :=
  {| gen_body := fun x => x ^ 2; gen_source := range 10 |}.

Definition name_to_age : dict string Z :=
  dict_display [("Alice", 30); ("Bob", 25); ("Charlie", 35)].
Definition age_to_name : dict Z string :=
  dict_of (fun item => snd item) (fun item => fst item) (items name_to_age).

(** The [try] statement that ends the script.  What it returns is the binding
    of [value] after it: [None] when the name is left unbound. *)
Definition conversion_example : M (option Z) :=
  try_except
    (value <- int_of_str "not a number" ;; ret (Some value))
    ValueError
    (fun e => print ["Conversion error: " ++ str_exc e] ;; ret None).

(** The block under [if __name__ == "__main__":]. *)
Definition main_block : M unit :=
  let person := {| name := "Alice"; age := 30 |} in
  greeting <- greet person ;;
  print [greeting] ;;
  let radius := 5.0%float in
  let area := calculate_area radius in
  print ["Area of circle with radius " ++ repr_float radius ++ ": "
         ++ format_fixed 2 area] ;;
  let colors :=
    dict_display [("red", "#FF0000"); ("green", "#00FF00"); ("blue", "#0000FF")] in
  print ["Yellow color code: " ++ dict_get colors "yellow" "Not found"] ;;
  _ <- conversion_example ;;
  ret tt.

(** The whole module, run under the name [dunder_name].  Its assignments
    are the definitions above; only its [print] calls act on the console.
    The numbers these print are the script's own, of one or two digits, for
    which [str] returns the decimal text. *)
Definition module_body (dunder_name : string) : M unit :=
  print ["Doubled:"; repr_list_int doubled] ;;
  print ["Even numbers:"; repr_list_int even] ;;
  print ["Sum:"; str_int (sum numbers)] ;;
  if String.eqb dunder_name "__main__" then main_block else ret tt.

(** The script run as a program. *)
Definition script : M unit := module_body "__main__".

(** ** The comprehensions, as functions of the names they read *)

(** [[num * 2 for num in numbers]]. *)
Definition doubled_of (numbers : list Z) : list Z :=
  map (fun num => num * 2) numbers.

(** [[num for num in numbers if num % 2 == 0]]. *)
Definition even_of (numbers : list Z) : list Z :=
  filter (fun num => num mod 2 =? 0) numbers.

(** [{age: name for name, age in name_to_age.items()}]. *)
Definition age_to_name_of (name_to_age : dict string Z) : dict Z string :=
  dict_of (fun item => snd item) (fun item => fst item) (items name_to_age).

(** The dictionary [colors] of the main block. *)
Definition colors : dict string string :=
  dict_display [("red", "#FF0000"); ("green", "#00FF00"); ("blue", "#0000FF")].

End Sample.

(** * Facts about the builtins *)

Import Py Sample.
Open Scope py_scope.

(** The builtins on the values the script gives them, and on a few others. *)

Example str_int_examples :
  map str_int [0; 30; -7; 1000] = ["0"; "30"; "-7"; "1000"].
Proof. reflexivity. Qed.

Example parse_int_examples :
  map parse_int [" 12 "; "1_000"; "-0012"; "+7"; "_1"; "1_"; "1__2"; "+ 1"; "-";
                 "not a number"]
  = [Some 12; Some 1000; Some (-12); Some 7; None; None; None; None; None; None].
Proof. reflexivity. Qed.

Example repr_str_examples :
  map repr_str ["not a number"; "a\b"] = ["'not a number'"; "'a\\b'"]
  /\ repr_str "it's" = String dquote ("it's" ++ String dquote EmptyString).
Proof. split; reflexivity. Qed.

Example repr_float_examples :
  map repr_float [5.0; 0.1; 78.53975; 1e16; 1e15; 0.0001; 0.00001; -2.5; 5e-324]%float
  = ["5.0"; "0.1"; "78.53975"; "1e+16"; "1000000000000000.0"; "0.0001"; "1e-05";
     "-2.5"; "5e-324"].
Proof. reflexivity. Qed.

Example format_fixed_examples :
  map (format_fixed 2) [78.53975; 0.125; 0.375; 2.675; -0.001; 99.995]%float
  = ["78.54"; "0.12"; "0.38"; "2.67"; "-0.00"; "100.00"].
Proof. reflexivity. Qed.

Example dict_get_examples :
  let colors :=
    dict_display [("red", "#FF0000"); ("green", "#00FF00"); ("blue", "#0000FF")] in
  dict_get colors "yellow" "Not found" = "Not found"
  /\ dict_get colors "red" "Not found" = "#FF0000".
Proof. split; reflexivity. Qed.

Section Effects.
Context {A B : Type}.

Lemma bind_returned (m : M A) (k : A -> M B) out a out' :
  m out = (Returned a, out') -> bind m k out = k a out'.
Proof. intros Hm. unfold bind. rewrite Hm. reflexivity. Qed.

Lemma bind_raised (m : M A) (k : A -> M B) out e out' :
  m out = (Raised e, out') -> bind m k out = (Raised e, out').
Proof. intros Hm. unfold bind. rewrite Hm. reflexivity. Qed.

(** A [try] whose block returns is its block: the handler is not run. *)
Lemma try_except_returned (body : M A) cls handler out a out' :
  body out = (Returned a, out') ->
  try_except body cls handler out = (Returned a, out').
Proof. intros Hb. unfold try_except. rewrite Hb. reflexivity. Qed.

(** A [try] whose block raises an instance of the class named runs the
    handler on the console the block left. *)
Lemma try_except_caught (body : M A) cls handler out e out' :
  body out = (Raised e, out') ->
  issubclass (exc_type e) cls = true ->
  try_except body cls handler out = handler e out'.
Proof. intros Hb Hc. unfold try_except. rewrite Hb, Hc. reflexivity. Qed.

Lemma try_except_passed (body : M A) cls handler out e out' :
  body out = (Raised e, out') ->
  issubclass (exc_type e) cls = false ->
  try_except body cls handler out = (Raised e, out').
Proof. intros Hb Hc. unfold try_except. rewrite Hb, Hc. reflexivity. Qed.
End Effects.

Lemma print_line (args : list string) (out : console) :
  print args out = (Returned tt, write_line out (join " " args)).
Proof. reflexivity. Qed.

(** [print] then the rest: the rest runs on the console with the line added. *)
Lemma print_then {B} (args : list string) (k : M B) (out : console) :
  (print args ;; k) out = k (write_line out (join " " args)).
Proof. reflexivity. Qed.



(** Every exception class derives from [BaseException], and [issubclass] is
    a preorder. *)
Lemma issubclass_refl c : issubclass c c = true.
Proof. destruct c; reflexivity. Qed.

Lemma issubclass_trans c d e :
  issubclass c d = true -> issubclass d e = true -> issubclass c e = true.
Proof. destruct c, d, e; simpl; congruence. Qed.

Lemma ValueError_is_Exception : issubclass ValueError Exception = true.
Proof. reflexivity. Qed.

(** * Integers to text *)

Lemma str_of_int_fits (n : Z) (out : console) :
  fits_str_digits n = true -> str_of_int n out = (Returned (str_int n), out).
Proof. intros Hfit. unfold str_of_int. now rewrite Hfit. Qed.

Lemma str_of_int_exceeds (n : Z) (out : console) :
  fits_str_digits n = false -> str_of_int n out = (Raised str_digits_error, out).
Proof. intros Hfit. unfold str_of_int. now rewrite Hfit. Qed.

Example fits_str_digits_examples :
  map fits_str_digits [0; 7; -30; 15; 1000000] = [true; true; true; true; true].
Proof. reflexivity. Qed.

(** The decimal text of a power of ten is [1] and its zeros, so [10 ^ 4300],
    of 4301 digits, is beyond the limit. *)

Lemma pow10_iter (k : nat) : 10 ^ Z.of_nat k = Nat.iter k (Z.mul 10) 1.
Proof.
  induction k as [| k IH]; [reflexivity |].
  rewrite Nat2Z.inj_succ, Z.pow_succ_r by lia. simpl Nat.iter. now rewrite IH.
Qed.

Lemma string_of_uint_zeros (k : nat) :
  NilEmpty.string_of_uint (Nat.iter k Decimal.D0 Decimal.Nil) = zeros k.
Proof. induction k as [| k IH]; simpl; [| rewrite IH]; reflexivity. Qed.

Lemma zeros_length (k : nat) : String.length (zeros k) = k.
Proof. induction k as [| k IH]; simpl; [| rewrite IH]; reflexivity. Qed.

Lemma str_int_pow10 (k : nat) : str_int (10 ^ Z.of_nat k) = String "1" (zeros k).
Proof.
  unfold str_int. rewrite pow10_iter.
  change 1 with (Z.of_uint (Decimal.D1 Decimal.Nil)).
  rewrite <- DecimalZ.of_uint_iter_D0.
  change (Z.of_uint ?d) with (Z.of_int (Decimal.Pos d)).
  rewrite DecimalZ.to_of.
  change (Decimal.app (Decimal.D1 Decimal.Nil) (Nat.iter k Decimal.D0 Decimal.Nil))
    with (Decimal.D1 (Nat.iter k Decimal.D0 Decimal.Nil)).
  cbn [Decimal.norm Decimal.unorm Decimal.nzhead NilZero.string_of_int
       NilZero.string_of_uint NilEmpty.string_of_uint].
  now rewrite string_of_uint_zeros.
Qed.

Lemma int_digits_pow10 (k : nat) : int_digits (10 ^ Z.of_nat k) = Z.of_nat (S k).
Proof.
  unfold int_digits. rewrite Z.abs_eq by (apply Z.pow_nonneg; lia).
  rewrite str_int_pow10. cbn [String.length]. now rewrite zeros_length.
Qed.

Lemma large_int_exceeds : fits_str_digits (10 ^ 4300) = false.
Proof.
  unfold fits_str_digits.
  change (10 ^ 4300) with (10 ^ Z.of_nat 4300).
  rewrite int_digits_pow10. reflexivity.
Qed.

(** * [fetch_user_data] *)

(** On an identifier within the limit the [try] block prints one line and
    returns the dictionary it built. *)
Lemma fetch_user_data_try_returns (user_id : Z) (out : console) :
  fits_str_digits user_id = true ->
  fetch_user_data_try user_id out =
  (Returned (Some [("id", Int user_id);
                   ("name", Str "John Doe");
                   ("email", Str ("user" ++ str_int user_id ++ "@example.com"))]),
   write_line out ("Fetching user data for ID: " ++ str_int user_id)).
Proof.
  intros Hfit. unfold fetch_user_data_try.
  erewrite bind_returned by (now apply str_of_int_fits).
  rewrite print_then.
  erewrite bind_returned by (now apply str_of_int_fits).
  reflexivity.
Qed.

(** On an identifier beyond the limit the [try] block raises before it has
    printed anything. *)
Lemma fetch_user_data_try_raises (user_id : Z) (out : console) :
  fits_str_digits user_id = false ->
  fetch_user_data_try user_id out = (Raised str_digits_error, out).
Proof.
  intros Hfit. unfold fetch_user_data_try.
  now apply bind_raised, str_of_int_exceeds.
Qed.

(** Where C1 fails: on the identifier [10 ^ 4300], of 4301 digits, the text
    of the identifier cannot be made, the [except] block runs, prints its
    line and the call returns [None]. *)
Lemma fetch_user_data_large_id :
  fetch_user_data (10 ^ 4300) [] =
  (Returned None,
   ["Error fetching user data: Exceeds the limit (4300 digits) for integer string conversion; use sys.set_int_max_str_digits() to increase the limit"]).
Proof.
  unfold fetch_user_data.
  rewrite (try_except_caught _ Exception _ _ _ _
             (fetch_user_data_try_raises (10 ^ 4300) [] large_int_exceeds));
    reflexivity.
Qed.

(** C1, as the code has it.  For every integer [user_id] of at most 4300
    digits and whatever the console holds, [fetch_user_data] returns a
    present dictionary with the items [id: user_id], [name: "John Doe"],
    [email: "user<user_id>@example.com"]; its [try] block does not raise,
    the [except] block is not run (any handler in its place gives the same
    run) and [None] is not returned.  For an identifier of more digits the
    [try] block raises [ValueError], the [except] block runs and the call
    returns [None]. *)
Theorem fetch_user_data_present (user_id : Z) (out : console) :
  (fits_str_digits user_id = true ->
   fst (fetch_user_data user_id out) =
     Returned (Some [("id", Int user_id);
                     ("name", Str "John Doe");
                     ("email", Str ("user" ++ str_int user_id ++ "@example.com"))])
   /\ fst (fetch_user_data user_id out) <> Returned None
   /\ (forall e out', fetch_user_data_try user_id out <> (Raised e, out'))
   /\ (forall handler,
         try_except (fetch_user_data_try user_id) Exception handler out =
         fetch_user_data user_id out))
  /\ (fits_str_digits user_id = false ->
      fetch_user_data_try user_id out = (Raised str_digits_error, out)
      /\ fetch_user_data user_id out =
           (Returned None,
            write_line out ("Error fetching user data: " ++ str_exc str_digits_error))).
Proof.
  split; intros Hfit.
  - pose proof (fetch_user_data_try_returns user_id out Hfit) as Htry.
    assert (Hrun : forall handler,
               try_except (fetch_user_data_try user_id) Exception handler out =
               fetch_user_data_try user_id out).
    { intros handler. rewrite Htry. now apply try_except_returned. }
    unfold fetch_user_data. rewrite (Hrun fetch_user_data_except), Htry.
    split; [reflexivity |].
    split; [simpl; discriminate |].
    split; [discriminate |].
    intros handler. rewrite <- Htry. apply Hrun.
  - pose proof (fetch_user_data_try_raises user_id out Hfit) as Htry.
    split; [exact Htry |].
    unfold fetch_user_data.
    rewrite (try_except_caught _ Exception _ _ _ _ Htry); reflexivity.
Qed.

(** The theorem on the identifiers 7 and [10 ^ 4300]. *)
Lemma fetch_user_data_present_witness :
  fst (fetch_user_data 7 []) =
    Returned (Some [("id", Int 7); ("name", Str "John Doe");
                    ("email", Str "user7@example.com")])
  /\ fetch_user_data_try (10 ^ 4300) [] = (Raised str_digits_error, []).
Proof.
  split.
  - apply (proj1 (fetch_user_data_present 7 [])). reflexivity.
  - apply (proj2 (fetch_user_data_present (10 ^ 4300) [])). exact large_int_exceeds.
Defined.




(** * Console output, statement by statement *)

Section Emits.
Context {A B : Type}.

Lemma emits_ret (a : A) : emits (ret a) (Returned a) [].
Proof. intros out. unfold ret. now rewrite app_nil_r. Qed.

Lemma emits_raise (e : exception) : emits (@raise A e) (Raised e) [].
Proof. intros out. unfold raise. now rewrite app_nil_r. Qed.

Lemma emits_bind (m : M A) (k : A -> M B) a l1 r l2 :
  emits m (Returned a) l1 -> emits (k a) r l2 ->
  emits (bind m k) r (l1 ++ l2).
Proof.
  intros Hm Hk out.
  rewrite (bind_returned m k out a (out ++ l1)%list (Hm out)), Hk.
  now rewrite app_assoc.
Qed.

Lemma emits_bind_raised (m : M A) (k : A -> M B) e l :
  emits m (Raised e) l -> emits (bind m k) (Raised e) l.
Proof. intros Hm out. now apply bind_raised. Qed.

Lemma emits_try_returned (body : M A) cls handler a l :
  emits body (Returned a) l -> emits (try_except body cls handler) (Returned a) l.
Proof. intros Hb out. now apply try_except_returned. Qed.

Lemma emits_try_caught (body : M A) cls handler e l1 r l2 :
  emits body (Raised e) l1 ->
  issubclass (exc_type e) cls = true ->
  emits (handler e) r l2 ->
  emits (try_except body cls handler) r (l1 ++ l2).
Proof.
  intros Hb Hc Hh out.
  rewrite (try_except_caught body cls handler out e (out ++ l1)%list (Hb out) Hc), Hh.
  now rewrite app_assoc.
Qed.

(** What a program writes and how it ends are functions of the program
    alone. *)
Lemma emits_functional (m : M A) r1 l1 r2 l2 :
  emits m r1 l1 -> emits m r2 l2 -> r1 = r2 /\ l1 = l2.
Proof.
  intros H1 H2. specialize (H1 []). specialize (H2 []).
  rewrite H1 in H2. simpl in H2. now inversion H2.
Qed.
End Emits.

Lemma emits_print (args : list string) :
  emits (print args) (Returned tt) [join " " args].
Proof. intros out. reflexivity. Qed.

Lemma emits_print_then {B} (args : list string) (k : M B) line r l :
  join " " args = line -> emits k r l -> emits (print args ;; k) r (line :: l).
Proof.
  intros <- Hk.
  apply (emits_bind (print args) (fun _ => k) tt [join " " args] r l).
  - apply emits_print.
  - exact Hk.
Qed.

Ltac emits_print := apply emits_print_then; [reflexivity |].

(** * The conversion error *)

(** [int("not a number")] raises a [ValueError] and writes nothing. *)
Lemma int_of_str_not_a_number :
  emits (int_of_str "not a number")
        (Raised {| exc_type := ValueError;
                   str_exc := "invalid literal for int() with base 10: 'not a number'" |})
        [].
Proof. apply (emits_raise (A := Z)). Qed.

(** The [try] statement catches it, prints the message and leaves [value]
    unbound. *)
Lemma conversion_example_emits :
  emits conversion_example (Returned None)
        ["Conversion error: invalid literal for int() with base 10: 'not a number'"].
Proof.
  unfold conversion_example.
  eapply (emits_try_caught _ _ _ _ [] _ [_]).
  - apply emits_bind_raised, int_of_str_not_a_number.
  - reflexivity.
  - emits_print. apply emits_ret.
Qed.

(** The lines of the block under [if __name__ == "__main__":]. *)
Lemma main_block_emits :
  emits main_block (Returned tt)
    ["Hello, my name is Alice and I am 30 years old.";
     "Area of circle with radius 5.0: 78.54";
     "Yellow color code: Not found";
     "Conversion error: invalid literal for int() with base 10: 'not a number'"].
Proof.
  unfold main_block.
  do 3 emits_print.
  eapply (emits_bind _ _ None [_] _ []).
  - apply conversion_example_emits.
  - apply emits_ret.
Qed.

(** The lines of the whole script, run as a program. *)
Lemma script_emits :
  emits script (Returned tt)
    ["Doubled: [2, 4, 6, 8, 10]";
     "Even numbers: [2, 4]";
     "Sum: 15";
     "Hello, my name is Alice and I am 30 years old.";
     "Area of circle with radius 5.0: 78.54";
     "Yellow color code: Not found";
     "Conversion error: invalid literal for int() with base 10: 'not a number'"].
Proof.
  unfold script, module_body.
  do 3 emits_print.
  apply main_block_emits.
Qed.

(** Imported under another name, the module writes its first three lines
    only. *)
Lemma module_body_imported (dunder_name : string) :
  dunder_name <> "__main__" ->
  emits (module_body dunder_name) (Returned tt)
    ["Doubled: [2, 4, 6, 8, 10]"; "Even numbers: [2, 4]"; "Sum: 15"].
Proof.
  intros Hname. unfold module_body.
  apply String.eqb_neq in Hname. rewrite Hname.
  do 3 emits_print.
  apply emits_ret.
Qed.

(** C2.  [int("not a number")] raises a [ValueError] (the error of a badly
    formed number) and writes nothing; the [try] statement around it catches
    the error where it occurs, prints
    [Conversion error: invalid literal for int() with base 10: 'not a number']
    and goes on with [value] left unbound and nothing else changed; the
    script, run as a program, writes all its seven lines and exits with
    status 0. *)
Theorem conversion_error_caught (out : console) :
  int_of_str "not a number" out =
    (Raised {| exc_type := ValueError;
               str_exc := "invalid literal for int() with base 10: 'not a number'" |},
     out)
  /\ conversion_example out =
       (Returned None,
        write_line out
          "Conversion error: invalid literal for int() with base 10: 'not a number'")
  /\ run_program script =
       (0,
        ["Doubled: [2, 4, 6, 8, 10]";
         "Even numbers: [2, 4]";
         "Sum: 15";
         "Hello, my name is Alice and I am 30 years old.";
         "Area of circle with radius 5.0: 78.54";
         "Yellow color code: Not found";
         "Conversion error: invalid literal for int() with base 10: 'not a number'"]).
Proof.
  split; [| split].
  - rewrite (int_of_str_not_a_number out). now rewrite app_nil_r.
  - apply conversion_example_emits.
  - unfold run_program. now rewrite (script_emits []).
Qed.

(** * Decimal text *)

Lemma digits_value_acc (d : Decimal.uint) : forall p : positive,
  digits_value (Z.pos p) true (digit_chars d) = Some (Z.pos (Pos.of_uint_acc d p)).
Proof.
  induction d as [| d IH | d IH | d IH | d IH | d IH | d IH | d IH | d IH | d IH | d IH];
    intros p; [reflexivity | ..];
    unfold digit_chars;
    cbn [NilEmpty.string_of_uint list_ascii_of_string digits_value Pos.of_uint_acc];
    match goal with |- context [digit_of ?c] =>
      let v := eval vm_compute in (digit_of c) in change (digit_of c) with v end;
    cbv iota beta; fold (digit_chars d);
    match goal with |- digits_value ?a _ _ = Some (Z.pos (Pos.of_uint_acc _ ?q)) =>
      replace a with (Z.pos q) by lia end;
    apply IH.
Qed.

(** The digits of a numeral are read back as the number it denotes. *)
Lemma digits_value_uint (d : Decimal.uint) : forall b : bool,
  b = true \/ d <> Decimal.Nil ->
  digits_value 0 b (digit_chars d) = Some (Z.of_N (Pos.of_uint d)).
Proof.
  induction d as [| d IH | d IH | d IH | d IH | d IH | d IH | d IH | d IH | d IH | d IH];
    intros b Hb;
    [ destruct Hb as [-> | Hd]; [reflexivity | congruence] | .. ];
    unfold digit_chars;
    cbn [NilEmpty.string_of_uint list_ascii_of_string digits_value];
    match goal with |- context [digit_of ?c] =>
      let v := eval vm_compute in (digit_of c) in change (digit_of c) with v end;
    cbv iota beta; fold (digit_chars d);
    match goal with |- digits_value ?a _ _ = _ =>
      let v := eval vm_compute in a in change a with v end;
    [ apply IH; now left | rewrite digits_value_acc; reflexivity .. ].
Qed.

Lemma lstrip_head (c : ascii) (l : list ascii) :
  is_space c = false -> lstrip (c :: l) = c :: l.
Proof. intros Hc. simpl. now rewrite Hc. Qed.

(** Text without white space is its own [strip]. *)
Lemma strip_no_space (l : list ascii) :
  Forall (fun c => is_space c = false) l -> strip l = l.
Proof.
  intros Hl. unfold strip.
  assert (Hls : forall l', Forall (fun c => is_space c = false) l' -> lstrip l' = l').
  { intros l' Hl'. destruct Hl' as [| c l' Hc _]; [reflexivity | now apply lstrip_head]. }
  rewrite (Hls l Hl), Hls, rev_involutive; [reflexivity |].
  now apply Forall_rev.
Qed.

Lemma digit_chars_no_space (d : Decimal.uint) :
  Forall (fun c => is_space c = false) (digit_chars d).
Proof.
  induction d; unfold digit_chars; simpl; constructor; try reflexivity; assumption.
Qed.

(** [int(str(n))] is [n]: the decimal text of an integer reads back as the
    integer. *)
Lemma parse_int_str_int (n : Z) : parse_int (str_int n) = Some n.
Proof.
  unfold parse_int, str_int.
  destruct n as [| p | p]; [reflexivity | |]; simpl Z.to_int;
    unfold NilZero.string_of_int, NilZero.string_of_uint;
    pose proof (DecimalPos.Unsigned.to_uint_nonnil p) as Hnil;
    pose proof (DecimalPos.Unsigned.of_to p) as Hof.
  - destruct (Pos.to_uint p) as [| d | d | d | d | d | d | d | d | d | d] eqn:Hd;
      [congruence | ..];
      match goal with |- context [NilEmpty.string_of_uint ?u] =>
        fold (digit_chars u);
        rewrite (strip_no_space _ (digit_chars_no_space u));
        transitivity (digits_value 0 false (digit_chars u)); [reflexivity |];
        rewrite digits_value_uint by (right; exact Hnil); rewrite Hof; reflexivity
      end.
  - destruct (Pos.to_uint p) as [| d | d | d | d | d | d | d | d | d | d] eqn:Hd;
      [congruence | ..];
      match goal with |- context [NilEmpty.string_of_uint ?u] =>
        cbn [list_ascii_of_string]; fold (digit_chars u);
        rewrite (strip_no_space ("-"%char :: digit_chars u))
          by (constructor; [reflexivity | apply digit_chars_no_space]);
        cbv iota beta;
        rewrite digits_value_uint by (right; exact Hnil); rewrite Hof; reflexivity
      end.
Qed.

(** * [Person] *)

(** On an age within the limit [greet] returns its text and leaves the
    console as it was. *)
Lemma greet_returns (p : Person) (out : console) :
  fits_str_digits (age p) = true ->
  greet p out =
    (Returned ("Hello, my name is " ++ name p ++ " and I am " ++ str_int (age p)
               ++ " years old."),
     out).
Proof.
  intros Hfit. unfold greet.
  now rewrite (bind_returned _ _ out _ out (str_of_int_fits (age p) out Hfit)).
Qed.

(** On an age beyond the limit [greet] raises. *)
Lemma greet_raises (p : Person) (out : console) :
  fits_str_digits (age p) = false -> greet p out = (Raised str_digits_error, out).
Proof.
  intros Hfit. unfold greet. now apply bind_raised, str_of_int_exceeds.
Qed.




(** C5.  [Person.create_person(n, a)] is [Person(n, a)]: the factory hands
    its arguments on unchanged, and the two persons compare equal. *)
Theorem create_person_is_constructor (n : string) (a : Z) :
  create_person Build_Person n a = {| name := n; age := a |}
  /\ Person_eq (create_person Build_Person n a) {| name := n; age := a |} = true.
Proof.
  split; [reflexivity |].
  unfold Person_eq, create_person. simpl.
  now rewrite String.eqb_refl, Z.eqb_refl.
Qed.

(** * Comprehensions *)

(** C6.  On [[1, 2, 3, 4, 5]], doubling gives [[2, 4, 6, 8, 10]], keeping
    the even numbers gives [[2, 4]], and the sum is 15. *)
Theorem comprehensions_on_numbers :
  numbers = [1; 2; 3; 4; 5]
  /\ doubled = [2; 4; 6; 8; 10]
  /\ even = [2; 4]
  /\ sum numbers = 15.
Proof. repeat split. Qed.

(** * Generators *)

Lemma range_values_next (it : range_iterator) :
  match range_next it with
  | Some (x, it') => range_values it = x :: range_values it'
  | None => range_values it = []
  end.
Proof.
  unfold range_next, range_values.
  destruct (Z.ltb_spec (range_pos it) (range_stop it)) as [Hlt | Hge]; simpl.
  - replace (Z.to_nat (range_stop it - range_pos it))
      with (S (Z.to_nat (range_stop it - (range_pos it + 1)))) by lia.
    reflexivity.
  - replace (Z.to_nat (range_stop it - range_pos it)) with O by lia.
    reflexivity.
Qed.

(** A generator drained gives its body applied to the values its source had
    yet to give, in that order. *)
Lemma drain_elements {A} (g : generator A) :
  fst (drain g) = map (gen_body g) (range_values (gen_source g)).
Proof.
  funelim (drain g); simpl;
    match goal with
    | Hs : _ = _ :> sigma _, Hc : _ = drain g |- _ => clear Hs Hc
    | Hc : _ = drain g |- _ => clear Hc
    end;
    match goal with Hn : gen_next g = _ |- _ => unfold gen_next in Hn end;
    pose proof (range_values_next (gen_source g)) as Hv;
    destruct (range_next (gen_source g)) as [[y it] |]; try discriminate.
  - match goal with Hn : Some _ = Some _ |- _ => inversion Hn; subst; clear Hn end.
    rewrite Hv. simpl. f_equal.
    match goal with IH : fst (drain _) = _ |- _ => exact IH end.
  - now rewrite Hv.
Qed.

(** What is left of a drained generator gives nothing more. *)
Lemma drain_exhausted {A} (g : generator A) : gen_next (snd (drain g)) = None.
Proof.
  funelim (drain g); simpl.
  - match goal with IH : gen_next (snd (drain _)) = None |- _ => exact IH end.
  - assumption.
Qed.

Lemma count_from_length (pos : Z) (n : nat) : List.length (count_from pos n) = n.
Proof. revert pos. induction n as [| n IH]; intros pos; simpl; [| rewrite IH]; reflexivity. Qed.

Lemma drain_length {A} (g : generator A) :
  List.length (fst (drain g)) = gen_remaining g.
Proof.
  rewrite drain_elements, length_map. unfold range_values.
  now rewrite count_from_length.
Qed.

(** C7.  The generator of squares over [range(10)], consumed to its end,
    gives [0, 1, 4, 9, 16, 25, 36, 49, 64, 81] in that order: ten elements,
    and nothing more after them. *)
Theorem squares_generator_elements :
  fst (drain squares_generator) = [0; 1; 4; 9; 16; 25; 36; 49; 64; 81]
  /\ List.length (fst (drain squares_generator)) = 10%nat
  /\ gen_next (snd (drain squares_generator)) = None.
Proof.
  split; [| split].
  - rewrite drain_elements. reflexivity.
  - rewrite drain_length. reflexivity.
  - apply drain_exhausted.
Qed.

(** * Dictionaries *)

#[global] Instance KeyLaws_str : KeyLaws string.
Proof. unfold KeyLaws. intros a b. apply String.eqb_eq. Qed.

#[global] Instance KeyLaws_int : KeyLaws Z.
Proof. unfold KeyLaws. intros a b. apply Z.eqb_eq. Qed.

Section DictFacts.
Context {K V : Type} `{KeyLaws K}.

Lemma key_eqb_neq (a b : K) : key_eqb a b = false <-> a <> b.
Proof.
  pose proof (key_eqb_eq a b) as Heq.
  destruct (key_eqb a b); split; intros Hx; try congruence.
  - exfalso. apply Hx. now apply Heq.
  - intros Hab. apply Heq in Hab. discriminate.
Qed.

(** Setting a key the dictionary does not hold adds the item at the end. *)
Lemma dict_set_fresh (d : dict K V) (k : K) (v : V) :
  ~ In k (keys d) -> dict_set d k v = (d ++ [(k, v)])%list.
Proof.
  induction d as [| [k' v'] d IH]; simpl; intros Hk; [reflexivity |].
  assert (Hne : key_eqb k' k = false) by (apply key_eqb_neq; tauto).
  rewrite Hne, IH by tauto. reflexivity.
Qed.

(** Setting a key the dictionary holds keeps the keys as they are. *)
Lemma dict_set_keys_present (d : dict K V) (k : K) (v : V) :
  In k (keys d) -> keys (dict_set d k v) = keys d.
Proof.
  induction d as [| [k' v'] d IH]; simpl; intros Hk; [tauto |].
  destruct (key_eqb k' k) eqn:Heq; simpl; [reflexivity |].
  f_equal. apply IH. destruct Hk as [-> | Hk]; [| exact Hk].
  apply key_eqb_neq in Heq. congruence.
Qed.

Lemma dict_lookup_set_same (d : dict K V) (k : K) (v : V) :
  dict_lookup (dict_set d k v) k = Some v.
Proof.
  induction d as [| [k' v'] d IH]; simpl.
  - now rewrite (proj2 (key_eqb_eq k k) eq_refl).
  - destruct (key_eqb k' k) eqn:Heq; simpl; now rewrite Heq.
Qed.

Lemma dict_lookup_In (d : dict K V) (k : K) (v : V) :
  NoDup (keys d) -> (dict_lookup d k = Some v <-> In (k, v) d).
Proof.
  induction d as [| [k' v'] d IH]; simpl; intros Hnd.
  - split; [discriminate | tauto].
  - inversion Hnd as [| ? ? Hnotin Hnd']; subst.
    destruct (key_eqb k' k) eqn:Heq.
    + apply key_eqb_eq in Heq. subst k'. split.
      * intros Hs. inversion Hs. now left.
      * intros [Hp | Hin]; [now inversion Hp |].
        exfalso. apply Hnotin. unfold keys.
        change k with (fst (k, v)). now apply in_map.
    + apply key_eqb_neq in Heq. rewrite (IH Hnd'). split.
      * now right.
      * intros [Hp | Hin]; [inversion Hp; congruence | exact Hin].
Qed.

(** A comprehension whose keys are all different lists its items in the
    order of the source. *)
Lemma dict_of_fresh {A} (key : A -> K) (val : A -> V) (l : list A) (acc : dict K V) :
  NoDup (keys acc ++ map key l) ->
  fold_left (fun d x => dict_set d (key x) (val x)) l acc =
  (acc ++ map (fun x => (key x, val x)) l)%list.
Proof.
  revert acc. induction l as [| x l IH]; simpl; intros acc Hnd.
  - now rewrite app_nil_r.
  - rewrite dict_set_fresh.
    + rewrite IH.
      * now rewrite <- app_assoc.
      * unfold keys in *. rewrite map_app, <- app_assoc. exact Hnd.
    + apply NoDup_remove_2 in Hnd. intros Hin. apply Hnd.
      apply in_or_app. now left.
Qed.

Lemma dict_of_NoDup {A} (key : A -> K) (val : A -> V) (l : list A) :
  NoDup (map key l) ->
  dict_of key val l = map (fun x => (key x, val x)) l.
Proof. intros Hnd. unfold dict_of. now rewrite dict_of_fresh. Qed.
End DictFacts.

(** Inverting a dictionary whose values are all different swaps each item in
    place. *)
Lemma dict_invert {K V : Type} `{KeyLaws V} (d : dict K V) :
  NoDup (values d) ->
  dict_of (fun item => snd item) (fun item => fst item) (items d) =
  map (fun item => (snd item, fst item)) d.
Proof. intros Hnd. now apply dict_of_NoDup. Qed.

(** C8.  Inverting [{"Alice": 30, "Bob": 25, "Charlie": 35}] gives
    [{30: "Alice", 25: "Bob", 35: "Charlie"}]: an item [(name, age)] is in the
    first exactly when [(age, name)] is in the second, looking up a name gives
    an age exactly when looking up the age gives the name, no two ages are the
    same, and both dictionaries hold three items. *)
Theorem age_to_name_inverts :
  age_to_name = [(30, "Alice"); (25, "Bob"); (35, "Charlie")]
  /\ (forall n a, In (n, a) (items name_to_age) <-> In (a, n) (items age_to_name))
  /\ (forall n a, dict_lookup name_to_age n = Some a <-> dict_lookup age_to_name a = Some n)
  /\ NoDup (values name_to_age)
  /\ List.length age_to_name = 3%nat
  /\ List.length name_to_age = 3%nat.
Proof.
  assert (Hvalues : NoDup (values name_to_age)).
  { repeat constructor; simpl; intuition discriminate. }
  assert (Hkeys : NoDup (keys name_to_age)).
  { repeat constructor; simpl; intuition discriminate. }
  assert (Hinv : age_to_name = map (fun item => (snd item, fst item)) name_to_age).
  { unfold age_to_name. now apply dict_invert. }
  assert (Hin : forall n a, In (n, a) (items name_to_age) <-> In (a, n) (items age_to_name)).
  { intros n a. unfold items. rewrite Hinv, in_map_iff. split.
    - intros Hi. exists (n, a). now split.
    - intros [[n' a'] [Heq Hi]]. simpl in Heq. now inversion Heq; subst. }
  split; [reflexivity |].
  split; [exact Hin |].
  split.
  - intros n a.
    rewrite (dict_lookup_In name_to_age n a Hkeys).
    rewrite (dict_lookup_In age_to_name a n).
    + apply Hin.
    + rewrite Hinv. unfold keys. rewrite map_map. exact Hvalues.
  - repeat split; assumption || reflexivity.
Qed.

(** * [calculate_area] *)

(** Rounding a product keeps the mantissa from going negative, so the sign
    of the result is the sign given. *)

Lemma shr_1_nonneg (mrs : shr_record) : 0 <= shr_m mrs -> 0 <= shr_m (shr_1 mrs).
Proof.
  destruct mrs as [m r s]. simpl. intros Hm.
  destruct m as [| [p | p |] | p]; simpl; lia.
Qed.

Lemma iter_shr_1_nonneg (p : positive) : forall mrs,
  0 <= shr_m mrs -> 0 <= shr_m (iter_pos shr_1 p mrs).
Proof.
  induction p as [p IH | p IH |]; simpl; intros mrs Hm.
  - apply IH, IH, shr_1_nonneg, Hm.
  - apply IH, IH, Hm.
  - apply shr_1_nonneg, Hm.
Qed.

Lemma shr_fexp_nonneg (prec emax m e : Z) (l : location) :
  0 <= m -> 0 <= shr_m (fst (shr_fexp prec emax m e l)).
Proof.
  intros Hm. unfold shr_fexp, shr.
  assert (H0 : 0 <= shr_m (shr_record_of_loc m l)) by (destruct l as [| []]; exact Hm).
  destruct (fexp prec emax (Zdigits2 m + e) - e); simpl; try exact H0.
  now apply iter_shr_1_nonneg.
Qed.

Lemma round_nearest_even_nonneg (m : Z) (l : location) :
  0 <= m -> 0 <= round_nearest_even m l.
Proof.
  intros Hm. destruct l as [| []]; simpl; try lia.
  destruct (Z.even m); lia.
Qed.

Lemma binary_round_aux_sign (prec emax : Z) (s : bool) (m e : Z) (l : location) :
  0 <= m ->
  match binary_round_aux prec emax s m e l with
  | S754_zero s' | S754_infinity s' | S754_finite s' _ _ => s' = s
  | S754_nan => False
  end.
Proof.
  intros Hm. unfold binary_round_aux.
  pose proof (shr_fexp_nonneg prec emax m e l Hm) as H1.
  destruct (shr_fexp prec emax m e l) as [mrs' e']. simpl in H1.
  pose proof (shr_fexp_nonneg prec emax _ e' loc_Exact
                (round_nearest_even_nonneg _ (loc_of_shr_record mrs') H1)) as H2.
  destruct (shr_fexp prec emax _ e' loc_Exact) as [mrs'' e'']. simpl in H2.
  destruct (shr_m mrs'') as [| p | p]; [reflexivity | | lia].
  destruct (e'' <=? emax - prec); reflexivity.
Qed.

(** The product of two finite floats is a zero, a finite float or an
    infinity, signed by the signs of the factors. *)
Lemma SFmul_finite_sign (prec emax : Z) sx mx ex sy my ey :
  match SFmul prec emax (S754_finite sx mx ex) (S754_finite sy my ey) with
  | S754_zero s | S754_infinity s | S754_finite s _ _ => s = xorb sx sy
  | S754_nan => False
  end.
Proof. unfold SFmul. apply binary_round_aux_sign. lia. Qed.

(** For a negative radius the area is a number, and its sign bit is clear. *)
Lemma calculate_area_sign (r : float) :
  (r <? 0)%float = true ->
  match Prim2SF (calculate_area r) with
  | S754_zero s | S754_infinity s | S754_finite s _ _ => s = false
  | S754_nan => False
  end.
Proof.
  unfold calculate_area. rewrite ltb_spec, !mul_spec.
  change (Prim2SF 0) with (S754_zero false).
  assert (Hpi : exists m e, Prim2SF 3.14159 = S754_finite false m e)
    by (vm_compute; eauto).
  destruct Hpi as (mpi & epi & ->).
  unfold SF64mul.
  destruct (Prim2SF r) as [s | s | | s m e]; try discriminate.
  - destruct s; [reflexivity | discriminate].
  - destruct s; [intros _ | discriminate].
    pose proof (SFmul_finite_sign prec emax false mpi epi true m e) as H1.
    destruct (SFmul prec emax (S754_finite false mpi epi) (S754_finite true m e))
      as [s1 | s1 | | s1 m1 e1]; try contradiction; cbn in H1; subst s1;
      try reflexivity.
    apply (SFmul_finite_sign prec emax true m1 e1 true m e).
Qed.

(** Where C4 fails: the radius [-1e-200] is negative and its area is [0.0],
    the product being too small for a binary64 float; [0.0] is not
    positive. *)
Lemma calculate_area_underflow :
  (-1e-200 <? 0)%float = true
  /\ calculate_area (-1e-200) = 0%float
  /\ (0 <? calculate_area (-1e-200))%float = false.
Proof. repeat split. Qed.

(** C4, as the code has it.  For every float [r], [calculate_area r] is
    [3.14159 * r * r] in binary64 arithmetic, multiplied from the left; for
    every strictly negative [r] the result is positive or, when the product
    is too small for a float, [0.0] (it is never negative and never NaN);
    and the result for [5.0], rendered with [.2f], is [78.54]. *)
Theorem calculate_area_spec (r : float) :
  calculate_area r = (3.14159 * r * r)%float
  /\ ((r <? 0)%float = true ->
      (0 <? calculate_area r)%float = true \/ calculate_area r = 0%float)
  /\ format_fixed 2 (calculate_area 5.0) = "78.54".
Proof.
  split; [reflexivity | split; [| reflexivity]].
  intros Hneg. pose proof (calculate_area_sign r Hneg) as Hs.
  rewrite ltb_spec. change (Prim2SF 0) with (S754_zero false).
  destruct (Prim2SF (calculate_area r)) as [s | s | | s m e] eqn:Harea;
    try contradiction; subst s.
  - right. apply Prim2SF_inj. now rewrite Harea.
  - now left.
  - now left.
Qed.

(** The theorem at the radius [-2.0]. *)
Lemma calculate_area_spec_witness :
  (-2 <? 0)%float = true
  /\ ((0 <? calculate_area (-2))%float = true \/ calculate_area (-2) = 0%float).
Proof.
  split; [reflexivity |].
  apply (proj1 (proj2 (calculate_area_spec (-2)))). reflexivity.
Defined.

(** * Further properties of the script's functions *)

(** ** Text, as lists of characters *)

Lemma list_ascii_of_string_app (a b : string) :
  list_ascii_of_string (a ++ b) = (list_ascii_of_string a ++ list_ascii_of_string b)%list.
Proof. induction a as [| c a IH]; simpl; [| rewrite IH]; reflexivity. Qed.

Lemma list_ascii_of_string_inj (a b : string) :
  list_ascii_of_string a = list_ascii_of_string b -> a = b.
Proof.
  intros Heq. rewrite <- (string_of_list_ascii_of_string a),
    <- (string_of_list_ascii_of_string b). now rewrite Heq.
Qed.

Lemma append_inv_head (a x y : string) : a ++ x = a ++ y -> x = y.
Proof. induction a as [| c a IH]; simpl; intros Heq; [exact Heq |]. inversion Heq. auto. Qed.

Lemma append_inv_tail (x y t : string) : x ++ t = y ++ t -> x = y.
Proof.
  intros Heq. apply list_ascii_of_string_inj.
  apply (f_equal list_ascii_of_string) in Heq.
  rewrite !list_ascii_of_string_app in Heq.
  now apply app_inv_tail in Heq.
Qed.

(** Two texts cut at the first [c] of each are equal part by part. *)
Lemma split_at_first {A} (c : A) (x x' y y' : list A) :
  ~ In c x -> ~ In c x' ->
  (x ++ c :: y = x' ++ c :: y')%list -> x = x' /\ y = y'.
Proof.
  revert x'. induction x as [| a x IH]; intros [| a' x'] Hx Hx' Heq; simpl in *.
  - inversion Heq. now split.
  - inversion Heq; subst. tauto.
  - inversion Heq; subst. tauto.
  - inversion Heq; subst.
    assert (Hrest : x = x' /\ y = y') by (apply IH; tauto).
    destruct Hrest as [-> ->]. now split.
Qed.

(** And so are two texts cut at the last [c] of each. *)
Lemma split_at_last {A} (c : A) (x x' y y' : list A) :
  ~ In c y -> ~ In c y' ->
  (x ++ c :: y = x' ++ c :: y')%list -> x = x' /\ y = y'.
Proof.
  intros Hy Hy' Heq.
  apply (f_equal (@rev A)) in Heq.
  rewrite !rev_app_distr in Heq. simpl in Heq. rewrite <- !app_assoc in Heq.
  simpl in Heq.
  apply split_at_first in Heq; [| now rewrite <- in_rev ..].
  destruct Heq as [Hr1 Hr2].
  split; apply rev_inj; assumption.
Qed.

(** The decimal text of an integer tells the integer, and holds no white
    space. *)
Lemma str_int_inj (a b : Z) : str_int a = str_int b -> a = b.
Proof.
  intros Heq. pose proof (parse_int_str_int a) as Ha.
  rewrite Heq, parse_int_str_int in Ha. now inversion Ha.
Qed.

Lemma str_int_no_space (n : Z) :
  Forall (fun c => is_space c = false) (list_ascii_of_string (str_int n)).
Proof.
  unfold str_int.
  destruct n as [| p | p]; simpl Z.to_int;
    unfold NilZero.string_of_int, NilZero.string_of_uint.
  - repeat constructor.
  - pose proof (DecimalPos.Unsigned.to_uint_nonnil p) as Hnil.
    destruct (Pos.to_uint p) eqn:Hd; [congruence | ..];
      apply (digit_chars_no_space).
  - pose proof (DecimalPos.Unsigned.to_uint_nonnil p) as Hnil.
    destruct (Pos.to_uint p) eqn:Hd; [congruence | ..];
      (constructor; [reflexivity | apply (digit_chars_no_space)]).
Qed.

Lemma str_int_no_blank (n : Z) : ~ In " "%char (list_ascii_of_string (str_int n)).
Proof.
  intros Hin. pose proof (str_int_no_space n) as Hs.
  rewrite Forall_forall in Hs. specialize (Hs _ Hin). discriminate.
Qed.

(** ** [Person] *)

(** The text of a greeting tells the name and the age it was made from:
    the age is what follows the last space before [ years old.] *)
Lemma greeting_text_inj (n1 n2 : string) (a1 a2 : Z) :
  "Hello, my name is " ++ n1 ++ " and I am " ++ str_int a1 ++ " years old."
  = "Hello, my name is " ++ n2 ++ " and I am " ++ str_int a2 ++ " years old." ->
  n1 = n2 /\ a1 = a2.
Proof.
  intros Heq.
  apply append_inv_head in Heq.
  change (" and I am " ++ str_int a1 ++ " years old.")
    with (" and I am" ++ " " ++ str_int a1 ++ " years old.") in Heq.
  change (" and I am " ++ str_int a2 ++ " years old.")
    with (" and I am" ++ " " ++ str_int a2 ++ " years old.") in Heq.
  apply (f_equal list_ascii_of_string) in Heq.
  rewrite !list_ascii_of_string_app in Heq.
  rewrite !app_assoc in Heq. apply app_inv_tail in Heq.
  rewrite <- !app_assoc in Heq.
  change (list_ascii_of_string " ") with [" "%char] in Heq.
  rewrite !(app_assoc (list_ascii_of_string _) (list_ascii_of_string " and I am")) in Heq.
  simpl in Heq.
  apply split_at_last in Heq; try apply str_int_no_blank.
  destruct Heq as [Hn Ha].
  apply app_inv_tail in Hn.
  apply list_ascii_of_string_inj in Hn, Ha. apply str_int_inj in Ha.
  now split.
Qed.

(** X1.  [greet] tells persons apart: two persons for whom [greet] returns
    the same greeting have the same name and the same age, whatever the name
    holds and whatever consoles the calls ran on. *)
Theorem greet_injective (p q : Person) (s : string) (out1 out2 : console) :
  fst (greet p out1) = Returned s -> fst (greet q out2) = Returned s -> p = q.
Proof.
  destruct p as [n1 a1], q as [n2 a2].
  destruct (fits_str_digits a1) eqn:Hfit1;
    [rewrite greet_returns by exact Hfit1 | rewrite greet_raises by exact Hfit1];
    cbn [fst name age]; [| discriminate].
  destruct (fits_str_digits a2) eqn:Hfit2;
    [rewrite greet_returns by exact Hfit2 | rewrite greet_raises by exact Hfit2];
    cbn [fst name age]; [| discriminate].
  intros H1 H2. inversion H1 as [Hs1]. inversion H2 as [Hs2].
  rewrite <- Hs2 in Hs1.
  destruct (greeting_text_inj _ _ _ _ Hs1) as [-> ->]. reflexivity.
Qed.

(** The theorem on Alice, 30. *)
Lemma greet_injective_witness :
  {| name := "Alice"; age := 30 |} = {| name := "Alice"; age := 30 |}.
Proof.
  apply (greet_injective {| name := "Alice"; age := 30 |} {| name := "Alice"; age := 30 |}
           "Hello, my name is Alice and I am 30 years old." [] ["Sum: 15"]);
    reflexivity.
Defined.

(** X2.  The equality of the dataclass decides equality of persons, and two
    persons made by [create_person] compare equal exactly when they were
    made from the same name and the same age. *)
Theorem Person_eq_spec (p q : Person) (n1 n2 : string) (a1 a2 : Z) :
  (Person_eq p q = true <-> p = q)
  /\ (Person_eq (create_person Build_Person n1 a1) (create_person Build_Person n2 a2) = true
      <-> n1 = n2 /\ a1 = a2).
Proof.
  assert (Hspec : forall x y : Person, Person_eq x y = true <-> x = y).
  { intros [nx ax] [ny ay]. unfold Person_eq. cbn [name age].
    rewrite andb_true_iff, String.eqb_eq, Z.eqb_eq. split.
    - intros [-> ->]. reflexivity.
    - intros Heq. inversion Heq. now split. }
  split; [apply Hspec |].
  rewrite Hspec. unfold create_person. split.
  - intros Heq. inversion Heq. now split.
  - intros [-> ->]. reflexivity.
Qed.

(** ** [fetch_user_data] *)

Lemma fetch_user_data_returns (user_id : Z) (out : console) :
  fits_str_digits user_id = true ->
  fetch_user_data user_id out =
  (Returned (Some [("id", Int user_id);
                   ("name", Str "John Doe");
                   ("email", Str ("user" ++ str_int user_id ++ "@example.com"))]),
   write_line out ("Fetching user data for ID: " ++ str_int user_id)).
Proof.
  intros Hfit. unfold fetch_user_data.
  now apply try_except_returned, fetch_user_data_try_returns.
Qed.

Lemma fetch_user_data_absent (user_id : Z) (out : console) :
  fits_str_digits user_id = false ->
  fst (fetch_user_data user_id out) = Returned None.
Proof.
  intros Hfit. unfold fetch_user_data.
  rewrite (try_except_caught _ Exception _ _ _ _
             (fetch_user_data_try_raises user_id out Hfit)); reflexivity.
Qed.

(** X3.  The e-mail address [fetch_user_data] makes up tells the user: when
    the dictionaries returned for two identifiers hold the same [email], the
    identifiers are the same, whatever the consoles the calls ran on. *)
Theorem fetch_user_data_email_injective
    (id1 id2 : Z) (out1 out2 : console) (d1 d2 : dict string value) :
  fst (fetch_user_data id1 out1) = Returned (Some d1) ->
  fst (fetch_user_data id2 out2) = Returned (Some d2) ->
  dict_lookup d1 "email" = dict_lookup d2 "email" ->
  id1 = id2.
Proof.
  destruct (fits_str_digits id1) eqn:Hfit1;
    [rewrite fetch_user_data_returns by exact Hfit1
    | rewrite fetch_user_data_absent by exact Hfit1; discriminate].
  destruct (fits_str_digits id2) eqn:Hfit2;
    [rewrite fetch_user_data_returns by exact Hfit2
    | rewrite fetch_user_data_absent by exact Hfit2; discriminate].
  cbn [fst].
  intros H1 H2. inversion H1; subst d1. inversion H2; subst d2.
  cbn. intros Hmail. inversion Hmail as [Heq].
  apply append_inv_tail in Heq. now apply str_int_inj.
Qed.

(** The theorem on the identifier 7, twice. *)
Lemma fetch_user_data_email_injective_witness : 7 = 7.
Proof.
  apply (fetch_user_data_email_injective 7 7 [] []
           [("id", Int 7); ("name", Str "John Doe"); ("email", Str "user7@example.com")]
           [("id", Int 7); ("name", Str "John Doe"); ("email", Str "user7@example.com")]);
    reflexivity.
Defined.

(** ** The module *)

(** X4.  Under any name the module writes its three lines on the lists; the
    four lines of the main block follow exactly when the name is
    [__main__], and under no name does the module raise. *)
Theorem module_body_guard (dunder_name : string) :
  emits (module_body dunder_name) (Returned tt)
    (["Doubled: [2, 4, 6, 8, 10]"; "Even numbers: [2, 4]"; "Sum: 15"]
     ++ (if String.eqb dunder_name "__main__"
         then ["Hello, my name is Alice and I am 30 years old.";
               "Area of circle with radius 5.0: 78.54";
               "Yellow color code: Not found";
               "Conversion error: invalid literal for int() with base 10: 'not a number'"]
         else [])).
Proof.
  destruct (String.eqb dunder_name "__main__") eqn:Hname.
  - apply String.eqb_eq in Hname. subst dunder_name. apply script_emits.
  - apply String.eqb_neq in Hname. rewrite app_nil_r.
    now apply module_body_imported.
Qed.

(** X5.  Looking a colour up with [get] never fails: the three colours give
    their codes, every other key gives the default, here [Not found]. *)
Theorem colors_get (key default : string) :
  dict_get colors key default =
    if String.eqb key "red" then "#FF0000"
    else if String.eqb key "green" then "#00FF00"
    else if String.eqb key "blue" then "#0000FF"
    else default.
Proof.
  change colors with [("red", "#FF0000"); ("green", "#00FF00"); ("blue", "#0000FF")].
  unfold dict_get, dict_lookup, key_eqb, Key_str.
  rewrite (String.eqb_sym "red"), (String.eqb_sym "green"), (String.eqb_sym "blue").
  destruct (String.eqb key "red"); [reflexivity |].
  destruct (String.eqb key "green"); [reflexivity |].
  destruct (String.eqb key "blue"); reflexivity.
Qed.

(** ** [calculate_area] on every float *)






Lemma SFeqb_refl_number (x : spec_float) :
  SFeqb x x = match x with S754_nan => false | _ => true end.
Proof.
  destruct x as [s | s | | s m e]; unfold SFeqb; simpl; try reflexivity.
  - now destruct s.
  - destruct s; rewrite Z.compare_refl, Pos.compare_cont_refl; reflexivity.
Qed.

(** X7.  For every float [r], the area is zero or more exactly when [r] is
    a number: it is never negative, and it is NaN only for a NaN radius. *)
Theorem calculate_area_number (r : float) :
  (0 <=? calculate_area r)%float = (r =? r)%float
  /\ (calculate_area r <? 0)%float = false.
Proof.
  unfold calculate_area. rewrite leb_spec, ltb_spec, eqb_spec, !mul_spec.
  rewrite SFeqb_refl_number.
  change (Prim2SF 0) with (S754_zero false).
  assert (Hpi : exists m e, Prim2SF 3.14159 = S754_finite false m e)
    by (vm_compute; eauto).
  destruct Hpi as (mpi & epi & ->).
  unfold SF64mul.
  destruct (Prim2SF r) as [s | s | | s m e].
  - now destruct s.
  - now destruct s.
  - now split.
  - pose proof (SFmul_finite_sign prec emax false mpi epi s m e) as H1.
    destruct (SFmul prec emax (S754_finite false mpi epi) (S754_finite s m e))
      as [s1 | s1 | | s1 m1 e1]; try contradiction; cbn in H1; subst s1;
      try (now destruct s).
    pose proof (SFmul_finite_sign prec emax s m1 e1 s m e) as H2.
    rewrite xorb_nilpotent in H2.
    destruct (SFmul prec emax (S754_finite s m1 e1) (S754_finite s m e))
      as [s2 | s2 | | s2 m2 e2]; try contradiction; subst s2; now split.
Qed.

(** ** Generator expressions *)

Lemma count_from_seq (pos : Z) (n : nat) :
  count_from pos n = map (fun i => pos + Z.of_nat i) (seq 0 n).
Proof.
  revert pos. induction n as [| n IH]; intros pos; [reflexivity |].
  cbn [count_from seq map]. rewrite Z.add_0_r. f_equal.
  rewrite IH, <- seq_shift, map_map.
  apply map_ext. intros i. lia.
Qed.

(** X8.  A generator expression over [range(n)], consumed to its end, gives
    its body at 0, 1, ..., n - 1 in that order: [n] elements, none at all
    when [n] is zero or negative. *)
Theorem genexpr_over_range {A} (body : Z -> A) (n : Z) :
  fst (drain {| gen_body := body; gen_source := range n |})
    = map (fun i => body (Z.of_nat i)) (seq 0 (Z.to_nat n))
  /\ List.length (fst (drain {| gen_body := body; gen_source := range n |}))
     = Z.to_nat n.
Proof.
  split.
  - rewrite drain_elements. cbn [gen_body gen_source]. unfold range_values, range.
    cbn [range_pos range_stop]. rewrite Z.sub_0_r, count_from_seq, map_map.
    reflexivity.
  - rewrite drain_length. unfold gen_remaining, range. cbn. now rewrite Z.sub_0_r.
Qed.

(** X9.  A generator is good for one pass: what is left of it once it has
    been consumed gives nothing when consumed again, and is left as it is;
    and consuming a generator gives the element [next] gives, then what
    consuming the rest gives. *)
Theorem generator_single_pass {A} (g : generator A) :
  drain (snd (drain g)) = ([], snd (drain g))
  /\ match gen_next g with
     | Some (x, g') => drain g = (x :: fst (drain g'), snd (drain g'))
     | None => drain g = ([], g)
     end.
Proof.
  assert (Hstep : forall h : generator A,
             match gen_next h with
             | Some (x, h') => drain h = (x :: fst (drain h'), snd (drain h'))
             | None => drain h = ([], h)
             end).
  { intros h. funelim (drain h);
      match goal with Hn : gen_next _ = _ |- _ => rewrite Hn end;
      reflexivity. }
  split; [| apply Hstep].
  pose proof (Hstep (snd (drain g))) as Hs.
  now rewrite drain_exhausted in Hs.
Qed.

(** ** Comprehensions over any list *)

Lemma sum_from (l : list Z) (acc : Z) : fold_left Z.add l acc = acc + sum l.
Proof.
  unfold sum. revert acc. induction l as [| x l IH]; intros acc; simpl; [lia |].
  rewrite IH, (IH x). lia.
Qed.

Lemma sum_cons (x : Z) (l : list Z) : sum (x :: l) = x + sum l.
Proof. unfold sum at 1. simpl. apply sum_from. Qed.

(** X10.  Whatever the list [numbers] holds, the doubled list is as long and
    sums to twice its sum, every number of it is even, so that keeping its
    even numbers keeps it whole; and the even numbers kept from [numbers]
    are those of its members that are even.  The script's [doubled] and
    [even] are these on its list. *)
Theorem comprehensions_on_any_list (numbers0 : list Z) :
  List.length (doubled_of numbers0) = List.length numbers0
  /\ sum (doubled_of numbers0) = 2 * sum numbers0
  /\ even_of (doubled_of numbers0) = doubled_of numbers0
  /\ (forall x, In x (even_of numbers0) <-> In x numbers0 /\ x mod 2 = 0)
  /\ doubled = doubled_of numbers
  /\ even = even_of numbers.
Proof.
  unfold doubled_of, even_of.
  split; [apply length_map |].
  split.
  { induction numbers0 as [| x l IH]; [reflexivity |].
    cbn [map]. rewrite !sum_cons, IH. lia. }
  split.
  { induction numbers0 as [| x l IH]; [reflexivity |].
    cbn [map filter]. rewrite Z_mod_mult, Z.eqb_refl. now f_equal. }
  split; [| split; reflexivity].
  intros x. rewrite filter_In, Z.eqb_eq. reflexivity.
Qed.

(** ** Dictionaries built by comprehension *)

Section DictInvariant.
Context {K V : Type} `{KeyLaws K}.

Lemma key_in_dec (k : K) (l : list K) : In k l \/ ~ In k l.
Proof.
  induction l as [| k' l IH]; [now right |].
  destruct (key_eqb k' k) eqn:Heq.
  - apply key_eqb_eq in Heq. left. now left.
  - apply key_eqb_neq in Heq. destruct IH as [Hin | Hout]; [left; now right |].
    right. intros [Hk | Hin]; tauto.
Qed.

(** Setting a key keeps the keys of a dictionary different from each other,
    and adds at most one item. *)
Lemma dict_set_NoDup (d : dict K V) (k : K) (v : V) :
  NoDup (keys d) -> NoDup (keys (dict_set d k v)).
Proof.
  intros Hnd. destruct (key_in_dec k (keys d)) as [Hin | Hout].
  - now rewrite dict_set_keys_present.
  - rewrite dict_set_fresh by exact Hout. unfold keys in *.
    rewrite map_app. simpl. apply NoDup_app.
    + exact Hnd.
    + repeat constructor. simpl. tauto.
    + intros x Hx [<- | []]. tauto.
Qed.

Lemma dict_set_length (d : dict K V) (k : K) (v : V) :
  (List.length (dict_set d k v) <= S (List.length d))%nat.
Proof.
  induction d as [| [k' v'] d IH]; simpl; [lia |].
  destruct (key_eqb k' k); simpl; lia.
Qed.

(** An item of a dictionary after [d[k] = v] was in [d], or is the item
    set. *)
Lemma dict_set_In (d : dict K V) (k : K) (v : V) (k' : K) (v' : V) :
  In (k', v') (dict_set d k v) -> In (k', v') d \/ (k' = k /\ v' = v).
Proof.
  induction d as [| [k0 v0] d IH]; simpl.
  - intros [Heq | []]. inversion Heq. now right.
  - destruct (key_eqb k0 k) eqn:Hk; simpl.
    + apply key_eqb_eq in Hk. subst k0.
      intros [Heq | Hin]; [inversion Heq; now right | left; now right].
    + intros [Heq | Hin]; [left; now left |].
      destruct (IH Hin) as [Hd | Hset]; [left; now right | now right].
Qed.

Lemma dict_of_acc_invariant {A} (key : A -> K) (val : A -> V) (l : list A) :
  forall acc : dict K V,
  NoDup (keys acc) ->
  let d := fold_left (fun d x => dict_set d (key x) (val x)) l acc in
  NoDup (keys d)
  /\ (List.length d <= List.length acc + List.length l)%nat
  /\ (forall k v, In (k, v) d ->
        In (k, v) acc \/ exists x, In x l /\ key x = k /\ val x = v).
Proof.
  induction l as [| x l IH]; intros acc Hnd; cbn [fold_left].
  - cbv zeta. split; [exact Hnd | split; [simpl; lia | now left]].
  - specialize (IH (dict_set acc (key x) (val x)) (dict_set_NoDup acc _ _ Hnd)).
    cbv zeta in *. destruct IH as (Hk & Hlen & Hitems).
    split; [exact Hk |]. split.
    + pose proof (dict_set_length acc (key x) (val x)). simpl. lia.
    + intros k v Hin. destruct (Hitems k v Hin) as [Hacc | (y & Hy & Hky & Hvy)].
      * apply dict_set_In in Hacc. destruct Hacc as [Hacc | [-> ->]]; [now left |].
        right. exists x. split; [now left | now split].
      * right. exists y. split; [now right | now split].
Qed.

(** Looking a key up gives the value of an item of the dictionary. *)
Lemma dict_lookup_Some_In (d : dict K V) (k : K) (v : V) :
  dict_lookup d k = Some v -> In (k, v) d.
Proof.
  induction d as [| [k' v'] d IH]; simpl; [discriminate |].
  destruct (key_eqb k' k) eqn:Hk.
  - apply key_eqb_eq in Hk. subst k'. intros Heq. inversion Heq. now left.
  - intros Hl. right. now apply IH.
Qed.

Lemma dict_of_snoc {A} (key : A -> K) (val : A -> V) (l : list A) (x : A) :
  dict_of key val (l ++ [x]) = dict_set (dict_of key val l) (key x) (val x).
Proof. unfold dict_of. now rewrite fold_left_app. Qed.
End DictInvariant.

(** X11.  Whatever dictionary is inverted, also one where ages collide, the
    result has no key twice, has no more items than the source, and each of
    its items [(age, name)] comes from an item [(name, age)] of the
    source. *)
Theorem age_to_name_of_invariant (d : dict string Z) :
  NoDup (keys (age_to_name_of d))
  /\ (List.length (age_to_name_of d) <= List.length d)%nat
  /\ (forall a n, In (a, n) (age_to_name_of d) -> In (n, a) d).
Proof.
  unfold age_to_name_of, dict_of, items.
  pose proof (dict_of_acc_invariant (fun item : string * Z => snd item)
                (fun item => fst item) d [] (NoDup_nil _)) as Hinv.
  cbv zeta in Hinv. destruct Hinv as (Hk & Hlen & Hitems).
  split; [exact Hk |]. split; [exact Hlen |].
  intros a n Hin. destruct (Hitems a n Hin) as [[] | ([n' a'] & Hx & Ha & Hn)].
  simpl in Ha, Hn. now subst.
Qed.

(** X12.  When two names have the same age, the later one wins: after an
    item [(name, age)] at the end of the source, the inverted dictionary
    gives [name] for [age], whatever came before. *)
Theorem age_to_name_of_last_wins (d : dict string Z) (n : string) (a : Z) :
  dict_lookup (age_to_name_of (d ++ [(n, a)])%list) a = Some n.
Proof.
  unfold age_to_name_of, items. rewrite dict_of_snoc.
  apply dict_lookup_set_same.
Qed.

(** X13.  Inverting goes back and forth: on a dictionary with no key twice
    and no age twice, inverting the inverted dictionary gives the dictionary
    back, items in their order. *)
Theorem age_to_name_of_round_trip (d : dict string Z) :
  NoDup (keys d) -> NoDup (values d) ->
  dict_of (fun item => snd item) (fun item => fst item) (items (age_to_name_of d)) = d.
Proof.
  intros Hk Hv. unfold age_to_name_of.
  rewrite (dict_invert d Hv). unfold items.
  rewrite dict_of_NoDup.
  - rewrite map_map. simpl. rewrite <- (map_id d) at 2.
    apply map_ext. now intros [n a].
  - rewrite map_map. simpl. exact Hk.
Qed.

(** The theorem on the script's [name_to_age]. *)
Lemma age_to_name_of_round_trip_witness :
  dict_of (fun item => snd item) (fun item => fst item)
    (items (age_to_name_of name_to_age)) = name_to_age.
Proof.
  apply (age_to_name_of_round_trip name_to_age);
    repeat constructor; simpl; intuition discriminate.
Defined.
